(** * Lazy loading with hooks: the two React hooks and the [Image] component

    A shallow embedding of

    - [useImageOnLoad]          (hooks/useImageOnLoad.js),
    - [useIntersectionObserver] (hooks/useIntersectionObserver.js),
    - [Image]                   (components/Image.jsx, the variant that
                                 consumes both hooks),

    together with the part of their environment that the hooks talk to:
    the [IntersectionObserver] objects of the page and React's protocol
    for running an effect and its clean-up function.

    Vocabulary of the design document, and what it names in the code:
    - AssetLoadState     = the [isLoaded] cell of [useImageOnLoad];
      [markLoaded] is [handleImageOnLoad], [deriveStyle] is
      [transitionStyles];
    - VisibilityBinding  = one instance of [useIntersectionObserver];
      [bind] is one (re-)run of its effect, [dispose] the clean-up run of
      that effect, [onIntersectionUpdate] is [updateEntry], [lastEntry]
      is [entry];
    - ProgressiveImage   = one mounted [Image]; [shouldRenderHighFidelity]
      is the guard [isVisible] of the high resolution [<img>]. *)

From Stdlib Require Import QArith.
From stdpp Require Import base option list strings.

(** ** JavaScript objects used as style bags *)

Module Js.

Local Open Scope string_scope.

(** A CSS value is a number ([opacity: 0], [width: 600]) or a string. *)
Inductive Value :=
| Num (n : Z)
| Str (s : string).

(** An object literal: its own properties in insertion order. *)
Definition Obj := list (string * Value).

Fixpoint get (k : string) (o : Obj) : option Value :=
  match o with
  | [] => None
  | (k', v) :: rest => if String.eqb k k' then Some v else get k rest
  end.

(** [o[k] = v]: an existing key keeps its position, a new one goes last. *)
Fixpoint set (k : string) (v : Value) (o : Obj) : Obj :=
  match o with
  | [] => [(k, v)]
  | (k', v') :: rest =>
      if String.eqb k k' then (k', v) :: rest else (k', v') :: set k v rest
  end.

(** [{ ...a, ...b }] *)
Definition spread (a b : Obj) : Obj :=
  fold_left (λ acc kv, set kv.1 kv.2 acc) b a.

(** Splitting a CSS shorthand at its single spaces. *)
Fixpoint words_aux (cur : string) (s : string) : list string :=
  match s with
  | EmptyString => [cur]
  | String c rest =>
      if Ascii.eqb c Ascii.Space
      then cur :: words_aux EmptyString rest
      else words_aux (cur ++ String c EmptyString) rest
  end.

Definition words (s : string) : list string := words_aux EmptyString s.

(** The components of a shorthand property such as [transition]. *)
Definition shorthand (k : string) (o : Obj) : list string :=
  match get k o with
  | Some (Str s) => words s
  | _ => []
  end.

End Js.

(** ** hooks/useImageOnLoad.js *)

Module useImageOnLoad.

Local Open Scope string_scope.

(** [const [isLoaded, setIsLoaded] = useState(false)] *)
Record State := { isLoaded : bool }.

Definition initial : State := {| isLoaded := false |}.

Definition setIsLoaded (v : bool) (_ : State) : State := {| isLoaded := v |}.

(** [const handleImageOnLoad = () => setIsLoaded(true)] *)
Definition handleImageOnLoad : State → State := setIsLoaded true.

Record TransitionStyles := { lowRes : Js.Obj; highRes : Js.Obj }.

Definition transitionStyles (s : State) : TransitionStyles :=
  {| lowRes :=
       [ ("opacity", Js.Num (if isLoaded s then 0 else 1));
         ("filter", Js.Str "blur(2px)");
         ("transition", Js.Str "opacity 500ms ease-out 50ms") ];
     highRes :=
       [ ("opacity", Js.Num (if isLoaded s then 1 else 0));
         ("transition", Js.Str "opacity 500ms ease-in 50ms") ] |}.

End useImageOnLoad.

(** ** The page: [IntersectionObserver] objects

    The hook only constructs observers, calls [observe] and [disconnect]
    on them and receives their callbacks.  An observer is kept in a heap
    and named by its position there; calling a method through a name that
    denotes no object is the [TypeError] of JavaScript. *)

Module Dom.

(** Identity of a DOM element. *)
Definition Node := nat.

(** The [options] bag of the constructor. *)
Record Options := {
  threshold : Q;
  root : option Node;
  rootMargin : string
}.

(** An [IntersectionObserverEntry]; the hook reads [isIntersecting] only. *)
Record IntersectionObserverEntry := {
  isIntersecting : bool;
  intersectionRatio : Q;
  target : Node;
  time : Q
}.

(** The internal slots of one observer: its options and the targets it
    currently watches. *)
Record IntersectionObserver := {
  obs_options : Options;
  obs_targets : list Node
}.

(** An observer is named by its position in the heap. *)
Abbreviation Handle := nat (only parsing).

Abbreviation Heap := (list IntersectionObserver) (only parsing).

(** All live (observer, target) pairs of a heap whose first object has
    name [h]. *)
Fixpoint observations_from (h : Handle) (heap : Heap) : list (Handle * Node) :=
  match heap with
  | [] => []
  | o :: rest =>
      ((λ n, (h, n)) <$> obs_targets o) ++ observations_from (S h) rest
  end.

Definition observations (heap : Heap) : list (Handle * Node) :=
  observations_from 0 heap.

(** An observer that watches nothing. *)
Definition idle (o : IntersectionObserver) : Prop := obs_targets o = [].

End Dom.

(** ** hooks/useIntersectionObserver.js *)

Module useIntersectionObserver.

Import Dom.

(** The [elementRef] argument: a ref object whose [current] is the element
    or nothing. *)
Record Ref := { current : option Node }.

(** The function an effect run hands back to React.  The hook has one:
    [() => currentObserver.disconnect()], closed over [currentObserver]. *)
Inductive Destroy :=
| DisconnectObserver (currentObserver : Handle).

(** One instance of the hook: its two cells, the clean-up function React
    holds for the last effect run (until it has run it), and the observers
    this instance has constructed. *)
Record Instance := {
  observer : option Handle;
  entry : option IntersectionObserverEntry;
  destroy : option Destroy;
  heap : Heap
}.

(** [useRef()] and [useState()] without an argument start out undefined. *)
Definition initial : Instance :=
  {| observer := None; entry := None; destroy := None; heap := [] |}.

(** *** State and [TypeError] monad *)

Definition M (A : Type) : Type := Instance → option (A * Instance).

#[export] Instance M_ret : MRet M := λ A a s, Some (a, s).

#[export] Instance M_bind : MBind M :=
  λ A B f m s, match m s with Some (a, s') => f a s' | None => None end.

Definition throw {A : Type} : M A := λ _, None.

Definition read_observer : M (option Handle) := λ s, Some (observer s, s).

Definition write_observer (v : option Handle) : M unit :=
  λ s, Some ((), {| observer := v; entry := entry s;
                    destroy := destroy s; heap := heap s |}).

Definition setEntry (v : option IntersectionObserverEntry) : M unit :=
  λ s, Some ((), {| observer := observer s; entry := v;
                    destroy := destroy s; heap := heap s |}).

Definition read_destroy : M (option Destroy) := λ s, Some (destroy s, s).

Definition write_destroy (d : option Destroy) : M unit :=
  λ s, Some ((), {| observer := observer s; entry := entry s;
                    destroy := d; heap := heap s |}).

Definition write_heap (h : Heap) : M unit :=
  λ s, Some ((), {| observer := observer s; entry := entry s;
                    destroy := destroy s; heap := h |}).

(** Dereferencing an observer; a name without an object throws. *)
Definition deref (h : Handle) : M IntersectionObserver :=
  λ s, match heap s !! h with Some o => Some (o, s) | None => None end.

(** [new IntersectionObserver(updateEntry, opts)]: a fresh observer that
    watches nothing. *)
Definition new_IntersectionObserver (opts : Options) : M Handle :=
  λ s, Some (length (heap s),
             {| observer := observer s; entry := entry s; destroy := destroy s;
                heap := heap s ++ [{| obs_options := opts; obs_targets := [] |}] |}).

(** [h.observe(node)]: a target is watched once. *)
Definition observe (h : Handle) (node : Node) : M unit :=
  o ← deref h;
  s ← (λ s, Some (heap s, s));
  write_heap (<[h := {| obs_options := obs_options o;
                        obs_targets := if bool_decide (node ∈ obs_targets o)
                                       then obs_targets o
                                       else obs_targets o ++ [node] |}]> s).

(** [h.disconnect()]: the observer stops watching all of its targets. *)
Definition disconnect (h : Handle) : M unit :=
  o ← deref h;
  s ← (λ s, Some (heap s, s));
  write_heap (<[h := {| obs_options := obs_options o; obs_targets := [] |}]> s).

(** *** The hook body *)

Definition options : Options :=
  {| threshold := 1 # 10; root := None; rootMargin := "0%"%string |}.

(** [const updateEntry = entries => { setEntry(entries[0]) }] *)
Definition updateEntry (entries : list IntersectionObserverEntry) : M unit :=
  setEntry (entries !! 0%nat).

(** [if (observer.current) observer.current.disconnect()] *)
Definition disconnect_previous : M unit :=
  cur ← read_observer;
  match cur with
  | Some h => disconnect h
  | None => mret ()
  end.

(** From [observer.current = new IntersectionObserver(updateEntry, options)]
    to the returned clean-up function. *)
Definition observe_node (node : Node) : M (option Destroy) :=
  h ← new_IntersectionObserver options;
  write_observer (Some h);;
  cur ← read_observer;
  match cur with
  | Some currentObserver =>
      observe currentObserver node;;
      mret (Some (DisconnectObserver currentObserver))
  | None => throw
  end.

(** The function passed to [useEffect]. *)
Definition effect (elementRef : option Ref) : M (option Destroy) :=
  match elementRef ≫= current with
  | None => mret None
  | Some node => disconnect_previous;; observe_node node
  end.

(** [!!v] for a value that is undefined or a boolean. *)
Definition truthy (v : option bool) : bool := default false v.

(** [isVisible: !!entry?.isIntersecting] *)
Definition isVisible (s : Instance) : bool :=
  truthy (isIntersecting <$> entry s).

(** *** React's effect protocol *)

Definition call (d : Destroy) : M unit :=
  match d with
  | DisconnectObserver currentObserver => disconnect currentObserver
  end.

(** React runs the clean-up function of the last effect run, once. *)
Definition run_destroy : M unit :=
  d ← read_destroy;
  match d with
  | Some d => call d;; write_destroy None
  | None => mret ()
  end.

(** The effect runs after mount and whenever its dependency [elementRef]
    has changed; the previous run is cleaned up first. *)
Definition commit (elementRef : option Ref) : M unit :=
  run_destroy;;
  d ← effect elementRef;
  write_destroy d.

(** [bind(target)]: the effect runs against a ref that holds [target]. *)
Definition bind (target : option Node) : M unit :=
  commit (Some {| current := target |}).

(** [dispose()]: the clean-up React runs when the owner goes away. *)
Definition dispose : M unit := run_destroy.

(** What can happen to an instance: React (re-)runs the effect, an
    observer calls back with a batch of entries, React runs the pending
    clean-up.  Nothing is assumed about when the page calls back. *)
Inductive Event :=
| Bind (elementRef : option Ref)
| Deliver (entries : list IntersectionObserverEntry)
| Dispose.

Definition step (e : Event) : M unit :=
  match e with
  | Bind elementRef => commit elementRef
  | Deliver entries => updateEntry entries
  | Dispose => dispose
  end.

Fixpoint run (trace : list Event) : M unit :=
  match trace with
  | [] => mret ()
  | e :: rest => step e;; run rest
  end.

(** The instance a computation leaves behind, if it does not throw. *)
Definition exec {A : Type} (m : M A) (s : Instance) : option Instance :=
  snd <$> m s.

Definition activeObservations (s : Instance) : list (Handle * Node) :=
  observations (heap s).

(** The element watched through [observer.current]. *)
Definition currentTarget (s : Instance) : option Node :=
  h ← observer s; o ← heap s !! h; head (obs_targets o).

(** The shapes an instance can take.  Either nothing was ever observed;
    or the newest observer is the one in [observer.current], every older
    one is idle, and the newest watches exactly one element precisely
    while React still holds its clean-up function. *)
Inductive wf : Instance → Prop :=
| wf_unbound e :
    wf {| observer := None; entry := e; destroy := None; heap := [] |}
| wf_released old o e :
    Forall idle old → idle o →
    wf {| observer := Some (length old); entry := e; destroy := None;
          heap := old ++ [o] |}
| wf_watching old o e node :
    Forall idle old → obs_targets o = [node] →
    wf {| observer := Some (length old); entry := e;
          destroy := Some (DisconnectObserver (length old));
          heap := old ++ [o] |}.

(** The batches handed to [updateEntry] along a trace, oldest first. *)
Fixpoint delivered (trace : list Event) : list (list IntersectionObserverEntry) :=
  match trace with
  | [] => []
  | Deliver entries :: rest => entries :: delivered rest
  | _ :: rest => delivered rest
  end.

(** No [Bind] of the trace carried an element. *)
Fixpoint no_target_seen (trace : list Event) : bool :=
  match trace with
  | [] => true
  | Bind elementRef :: rest =>
      match elementRef ≫= current with
      | Some _ => false
      | None => no_target_seen rest
      end
  | _ :: rest => no_target_seen rest
  end.

(** The elements the effect runs of a trace found in [elementRef.current],
    oldest first. *)
Fixpoint bound_nodes (trace : list Event) : list Node :=
  match trace with
  | [] => []
  | Bind elementRef :: rest => option_list (elementRef ≫= current) ++ bound_nodes rest
  | _ :: rest => bound_nodes rest
  end.

(** The element of the latest effect run, unless a clean-up came after it;
    [cur] is the element watched before the trace. *)
Fixpoint watched (cur : option Node) (trace : list Event) : option Node :=
  match trace with
  | [] => cur
  | Bind elementRef :: rest => watched (elementRef ≫= current) rest
  | Deliver _ :: rest => watched cur rest
  | Dispose :: rest => watched None rest
  end.

End useIntersectionObserver.

(** ** components/Image.jsx *)

Module Image.

Import useImageOnLoad useIntersectionObserver.

Local Open Scope string_scope.

(** The props; [width] and [height] default to ['100%'] when omitted. *)
Record Props := {
  width : option Js.Value;
  height : option Js.Value;
  lowResSrc : string;
  highResSrc : string
}.

(** One mounted [Image]: the state of its two hooks. *)
Record State := {
  load : useImageOnLoad.State;
  io : useIntersectionObserver.Instance
}.

Definition initial : State :=
  {| load := useImageOnLoad.initial; io := useIntersectionObserver.initial |}.

Record Styles := { wrapper : Js.Obj; image : Js.Obj }.

Definition styles (p : Props) : Styles :=
  {| wrapper :=
       [ ("position", Js.Str "relative");
         ("width", default (Js.Str "100%") (width p));
         ("height", default (Js.Str "100%") (height p)) ];
     image :=
       [ ("position", Js.Str "absolute");
         ("width", Js.Str "100%");
         ("height", Js.Str "100%");
         ("objectPosition", Js.Str "center center");
         ("objectFit", Js.Str "cover") ] |}.

Definition lowResStyle (p : Props) (s : State) : Js.Obj :=
  Js.spread (image (styles p)) (lowRes (transitionStyles (load s))).

Definition hightResStyle (p : Props) (s : State) : Js.Obj :=
  Js.spread (image (styles p)) (highRes (transitionStyles (load s))).

(** The [onLoad] attribute of an [<img>], when it has one. *)
Inductive Handler :=
| HandleImageOnLoad.

Record Img := {
  src : string;
  style : Js.Obj;
  onLoad : option Handler
}.

(** The wrapper [<div>] (which carries [imageRef]) and its children. *)
Record Element := {
  div_style : Js.Obj;
  children : list Img
}.

(** What the component returns; [isVisible && <img ... />] renders the
    second child only when [isVisible] holds. *)
Definition render (p : Props) (s : State) : Element :=
  {| div_style := wrapper (styles p);
     children :=
       {| src := lowResSrc p; style := lowResStyle p s; onLoad := None |}
       :: (if isVisible (io s)
           then [ {| src := highResSrc p; style := hightResStyle p s;
                     onLoad := Some HandleImageOnLoad |} ]
           else []) |}.

(** The guard of the high resolution [<img>]. *)
Definition shouldRenderHighFidelity (s : State) : bool := isVisible (io s).

(** What can happen to a mounted [Image]: something happens to its
    observer hook, or the high resolution [<img>] fires [onLoad]. *)
Inductive Event :=
| Io (e : useIntersectionObserver.Event)
| HighResLoaded.

Definition step (e : Event) (s : State) : option State :=
  match e with
  | Io e =>
      io' ← exec (useIntersectionObserver.step e) (io s);
      Some {| load := load s; io := io' |}
  | HighResLoaded =>
      Some {| load := handleImageOnLoad (load s); io := io s |}
  end.

Fixpoint run (trace : list Event) (s : State) : option State :=
  match trace with
  | [] => Some s
  | e :: rest => s' ← step e s; run rest s'
  end.

(** The events of a trace that concern the observer hook. *)
Fixpoint io_events (trace : list Event) : list useIntersectionObserver.Event :=
  match trace with
  | [] => []
  | Io e :: rest => e :: io_events rest
  | HighResLoaded :: rest => io_events rest
  end.


(** A trace the browser can produce from [s]: [onLoad] belongs to the
    high resolution [<img>], so it fires only while that element is
    rendered. *)
Fixpoint feasible (trace : list Event) (s : State) : bool :=
  match trace with
  | [] => true
  | e :: rest =>
      match e with
      | HighResLoaded => shouldRenderHighFidelity s
      | Io _ => true
      end
      && match step e s with
         | Some s' => feasible rest s'
         | None => false
         end
  end.

End Image.

(** ** components/Image.jsx, first version

    The component before the observer hook was added: both [<img>]
    elements are always rendered. *)

Module ImageBasic.

Import useImageOnLoad.

Local Open Scope string_scope.

Definition styles (p : Image.Props) : Image.Styles :=
  {| Image.wrapper :=
       [ ("position", Js.Str "relative");
         ("width", default (Js.Str "100%") (Image.width p));
         ("height", default (Js.Str "100%") (Image.height p)) ];
     Image.image :=
       [ ("position", Js.Str "absolute");
         ("width", Js.Str "100%");
         ("height", Js.Str "100%");
         ("objectPosition", Js.Str "center center");
         ("objectFit", Js.Str "cover") ] |}.

Definition lowResStyle (p : Image.Props) (s : useImageOnLoad.State) : Js.Obj :=
  Js.spread (Image.image (styles p)) (lowRes (transitionStyles s)).

Definition hightResStyle (p : Image.Props) (s : useImageOnLoad.State) : Js.Obj :=
  Js.spread (Image.image (styles p)) (highRes (transitionStyles s)).

Definition render (p : Image.Props) (s : useImageOnLoad.State) : Image.Element :=
  {| Image.div_style := Image.wrapper (styles p);
     Image.children :=
       [ {| Image.src := Image.lowResSrc p; Image.style := lowResStyle p s;
            Image.onLoad := None |};
         {| Image.src := Image.highResSrc p; Image.style := hightResStyle p s;
            Image.onLoad := Some Image.HandleImageOnLoad |} ] |}.

End ImageBasic.

(** ** src/App.jsx: the page of the demo *)

Module App.

Import Dom useIntersectionObserver.

Local Open Scope string_scope.

Definition srcTuple : list string :=
  [ "https://i.ebayimg.com/images/g/nGQAAOSwHoFe4Kb3/s-l300.jpg";
    "https://media1.tenor.com/images/aa2ae6319d58764aa8efaefaa61f8da7/tenor.gif" ].

Definition props : Image.Props :=
  {| Image.width := Some (Js.Num 600);
     Image.height := Some (Js.Num 400);
     Image.lowResSrc := default "" (srcTuple !! 0%nat);
     Image.highResSrc := default "" (srcTuple !! 1%nat) |}.

(** The wrapper [<div>] of the mounted image, and [imageRef] once React
    has attached it. *)
Definition wrapper_div : Node := 0%nat.

Definition imageRef : Ref := {| current := Some wrapper_div |}.

(** The wrapper scrolls into the viewport, and out of it again. *)
Definition entering : IntersectionObserverEntry :=
  {| isIntersecting := true; intersectionRatio := 1 # 5;
     target := wrapper_div; time := 1200 # 1 |}.

Definition leaving : IntersectionObserverEntry :=
  {| isIntersecting := false; intersectionRatio := 0 # 1;
     target := wrapper_div; time := 2500 # 1 |}.

End App.

(** * Properties *)

(** ** Observers that watch nothing contribute no observation *)

Section Heap.

Import Dom.

Lemma observations_from_app (h : Handle) (l1 l2 : Heap) :
  observations_from h (l1 ++ l2)
  = observations_from h l1 ++ observations_from (h + length l1) l2.
Proof.
  revert h. induction l1 as [|o l1 IH]; intros h; simpl.
  - by rewrite Nat.add_0_r.
  - rewrite IH, <- app_assoc. by replace (S h + length l1) with (h + S (length l1)) by lia.
Qed.

Lemma observations_from_idle (h : Handle) (l : Heap) :
  Forall idle l → observations_from h l = [].
Proof.
  intros Hl. revert h. induction Hl as [|o l Ho _ IH]; intros h; simpl; [done|].
  by rewrite Ho, IH.
Qed.

Lemma observations_last (old : Heap) (o : IntersectionObserver) :
  Forall idle old →
  observations (old ++ [o]) = (λ n, (length old, n)) <$> obs_targets o.
Proof.
  intros Hold. unfold observations.
  rewrite observations_from_app, observations_from_idle by done.
  simpl. by rewrite app_nil_r.
Qed.

End Heap.

(** ** The effect protocol keeps an instance in shape *)

Section Protocol.

Import Dom useIntersectionObserver.

Lemma insert_last {A : Type} (l : list A) (x y : A) :
  <[length l := y]> (l ++ [x]) = l ++ [y].
Proof. induction l as [|a l IH]; simpl; [done|]. by rewrite IH. Qed.

Lemma disconnect_last ob e d (old : Heap) o :
  disconnect (length old)
    {| observer := ob; entry := e; destroy := d; heap := old ++ [o] |}
  = Some ((), {| observer := ob; entry := e; destroy := d;
                 heap := old ++ [{| obs_options := obs_options o;
                                    obs_targets := [] |}] |}).
Proof.
  unfold disconnect, deref, write_heap, mbind, M_bind. simpl.
  rewrite list_lookup_middle by done. simpl. by rewrite insert_last.
Qed.

Lemma observe_last ob e d (old : Heap) o node :
  idle o →
  observe (length old) node
    {| observer := ob; entry := e; destroy := d; heap := old ++ [o] |}
  = Some ((), {| observer := ob; entry := e; destroy := d;
                 heap := old ++ [{| obs_options := obs_options o;
                                    obs_targets := [node] |}] |}).
Proof.
  intros Ho. unfold observe, deref, write_heap, mbind, M_bind. simpl.
  rewrite list_lookup_middle by done. simpl. rewrite insert_last, Ho.
  done.
Qed.

Lemma idle_disconnected opts : idle {| obs_options := opts; obs_targets := [] |}.
Proof. done. Qed.

(** Running the pending clean-up never throws, leaves nothing observed
    and touches neither [entry] nor, when nothing is pending, anything. *)
Lemma run_destroy_wf s :
  wf s →
  ∃ s', run_destroy s = Some ((), s') ∧ wf s' ∧ destroy s' = None
        ∧ activeObservations s' = [] ∧ currentTarget s' = None
        ∧ entry s' = entry s ∧ (destroy s = None → s' = s).
Proof.
  intros [e|old o e Hold Ho|old o e node Hold Ho].
  - eexists. split; [reflexivity|]. repeat split; try done. constructor.
  - eexists. split; [reflexivity|]. repeat split; try done.
    + by constructor.
    + unfold activeObservations. simpl. rewrite observations_last by done.
      by rewrite Ho.
    + unfold currentTarget. simpl. rewrite list_lookup_middle by done.
      simpl. by rewrite Ho.
  - eexists. split.
    + unfold run_destroy, read_destroy, mbind, M_bind. simpl.
      rewrite disconnect_last. reflexivity.
    + simpl. repeat split; try done.
      * by constructor.
      * unfold activeObservations. simpl. by rewrite observations_last.
      * unfold currentTarget. simpl. by rewrite list_lookup_middle.
Qed.

(** The effect body on an instance whose clean-up has run. *)
Lemma disconnect_previous_released s :
  wf s → destroy s = None →
  ∃ s', disconnect_previous s = Some ((), s') ∧ wf s' ∧ destroy s' = None
        ∧ Forall idle (heap s') ∧ entry s' = entry s
        ∧ length (heap s') = length (heap s).
Proof.
  intros [e|old o e Hold Ho|old o e node Hold Ho] Hd; try done.
  - eexists. split; [reflexivity|]. repeat split; try done. constructor.
  - eexists. split.
    + unfold disconnect_previous, read_observer, mbind, M_bind. simpl.
      apply disconnect_last.
    + simpl. repeat split; try done.
      * by constructor.
      * apply Forall_app. split; [done|]. by constructor.
      * by rewrite !length_app.
Qed.

Lemma observe_node_idle ob e d (h : Heap) node :
  observe_node node {| observer := ob; entry := e; destroy := d; heap := h |}
  = Some (Some (DisconnectObserver (length h)),
          {| observer := Some (length h); entry := e; destroy := d;
             heap := h ++ [{| obs_options := options; obs_targets := [node] |}] |}).
Proof.
  unfold observe_node, new_IntersectionObserver, write_observer, read_observer,
    mbind, M_bind, mret, M_ret. simpl.
  by rewrite observe_last.
Qed.

Lemma effect_released elementRef s :
  wf s → destroy s = None →
  ∃ d s', effect elementRef s = Some (d, s') ∧ entry s' = entry s
    ∧ match elementRef ≫= current with
      | None => d = None ∧ s' = s
      | Some node =>
          d = Some (DisconnectObserver (length (heap s)))
          ∧ observer s' = Some (length (heap s))
          ∧ destroy s' = None
          ∧ ∃ old, heap s' = old ++ [{| obs_options := options;
                                         obs_targets := [node] |}]
                   ∧ Forall idle old ∧ length old = length (heap s)
      end.
Proof.
  intros Hwf Hd. unfold effect.
  destruct (elementRef ≫= current) as [node|].
  - destruct (disconnect_previous_released s Hwf Hd)
      as ([ob e d h] & Hdp & _ & Hd' & Hidle & He & Hlen).
    simpl in *. subst d.
    eexists _, _. split.
    + unfold mbind, M_bind. rewrite Hdp. apply observe_node_idle.
    + simpl. rewrite <- Hlen. repeat split; try done. by exists h.
  - by eexists _, _.
Qed.

(** One (re-)run of the effect, as React performs it. *)
Lemma commit_wf elementRef s :
  wf s →
  ∃ s', commit elementRef s = Some ((), s') ∧ wf s' ∧ entry s' = entry s
    ∧ activeObservations s'
      = match elementRef ≫= current with
        | Some node => [(length (heap s), node)]
        | None => []
        end
    ∧ currentTarget s' = elementRef ≫= current
    ∧ (elementRef ≫= current = None → destroy s = None → s' = s).
Proof.
  intros Hwf.
  destruct (run_destroy_wf s Hwf)
    as (s1 & Hrd & Hwf1 & Hd1 & Hact1 & Hcur1 & He1 & Hsame).
  destruct (effect_released elementRef s1 Hwf1 Hd1) as (d & s2 & Heff & He2 & Hcase).
  assert (Hlen : length (heap s1) = length (heap s)).
  { clear -Hrd Hwf. destruct Hwf; simpl in *.
    - by inversion Hrd.
    - by inversion Hrd.
    - unfold run_destroy, read_destroy, mbind, M_bind in Hrd. simpl in Hrd.
      rewrite disconnect_last in Hrd. inversion Hrd. simpl.
      by rewrite !length_app. }
  destruct (elementRef ≫= current) as [node|].
  - destruct s2 as [ob2 e2 d2 h2]. simpl in *.
    destruct Hcase as (-> & -> & -> & old & -> & Hold & Hlen').
    eexists. split.
    + unfold commit, mbind, M_bind. rewrite Hrd, Heff. reflexivity.
    + simpl. rewrite <- Hlen, <- Hlen'. repeat split; try done.
      * by apply (wf_watching old _ e2 node).
      * congruence.
      * unfold activeObservations. simpl. by rewrite observations_last.
      * unfold currentTarget. simpl. by rewrite list_lookup_middle.
  - destruct Hcase as [-> ->].
    exists s1. split.
    + unfold commit, mbind, M_bind. rewrite Hrd, Heff.
      unfold write_destroy. rewrite <- Hd1. by destruct s1.
    + repeat split; done.
Qed.

Lemma updateEntry_wf entries s :
  wf s →
  ∃ s', updateEntry entries s = Some ((), s') ∧ wf s'
    ∧ entry s' = entries !! 0%nat
    ∧ observer s' = observer s ∧ destroy s' = destroy s ∧ heap s' = heap s.
Proof.
  intros Hwf. eexists. split; [reflexivity|].
  repeat split; try done. destruct Hwf; simpl; by econstructor.
Qed.

Lemma step_wf e s :
  wf s → ∃ s', step e s = Some ((), s') ∧ wf s'.
Proof.
  intros Hwf. destruct e as [elementRef|entries|]; simpl.
  - destruct (commit_wf elementRef s Hwf) as (s' & ? & ? & _). eauto.
  - destruct (updateEntry_wf entries s Hwf) as (s' & ? & ? & _). eauto.
  - destruct (run_destroy_wf s Hwf) as (s' & ? & ? & _). eauto.
Qed.

Lemma run_wf trace s :
  wf s → ∃ s', run trace s = Some ((), s') ∧ wf s'.
Proof.
  revert s. induction trace as [|e trace IH]; intros s Hwf; simpl.
  - by exists s.
  - destruct (step_wf e s Hwf) as (s1 & Hstep & Hwf1).
    destruct (IH s1 Hwf1) as (s2 & Hrun & Hwf2).
    exists s2. split; [|done]. unfold mbind, M_bind. by rewrite Hstep.
Qed.

Lemma initial_wf : wf initial.
Proof. constructor. Qed.

Lemma exec_run_wf trace s :
  exec (run trace) initial = Some s → wf s.
Proof.
  intros Hexec. destruct (run_wf trace initial initial_wf) as (s' & Hrun & Hwf).
  unfold exec in Hexec. rewrite Hrun in Hexec. simpl in Hexec. congruence.
Qed.

Lemma wf_at_most_one s : wf s → length (activeObservations s) ≤ 1.
Proof.
  intros [e|old o e Hold Ho|old o e node Hold Ho]; unfold activeObservations; simpl.
  - lia.
  - rewrite observations_last by done. rewrite Ho. simpl. lia.
  - rewrite observations_last by done. rewrite Ho. simpl. lia.
Qed.

End Protocol.

(** ** [useImageOnLoad]: the load flag and the styles derived from it *)

Section LoadTransition.

Import useImageOnLoad.

Local Open Scope string_scope.

Lemma step_load e s s' :
  Image.step e s = Some s' →
  isLoaded (Image.load s) = true → isLoaded (Image.load s') = true.
Proof.
  destruct e as [e|]; simpl.
  - destruct (useIntersectionObserver.exec _ _); simpl; [|done].
    intros [= <-]. done.
  - intros [= <-]. done.
Qed.

Lemma run_load trace s s' :
  Image.run trace s = Some s' →
  isLoaded (Image.load s) = true → isLoaded (Image.load s') = true.
Proof.
  revert s. induction trace as [|e trace IH]; intros s; simpl.
  - by intros [= <-].
  - destruct (Image.step e s) as [s1|] eqn:Hstep; simpl; [|done].
    intros Hrun Hs. eapply IH; [done|]. by eapply step_load.
Qed.

Lemma run_app pre post s :
  Image.run (pre ++ post) s = Image.run pre s ≫= Image.run post.
Proof.
  revert s. induction pre as [|e pre IH]; intros s; simpl; [done|].
  destruct (Image.step e s); simpl; [apply IH|done].
Qed.

(** C3. [handleImageOnLoad] (markLoaded) is idempotent: a second call
    changes nothing, and after a call [isLoaded] holds.  The flag is
    monotonic: along every trace of a mounted [Image], once [isLoaded] is
    true after a prefix of the trace it is true after the whole trace. *)
Theorem markLoaded_idempotent_loaded_monotonic :
  (∀ s, handleImageOnLoad (handleImageOnLoad s) = handleImageOnLoad s)
  ∧ (∀ s, isLoaded (handleImageOnLoad s) = true)
  ∧ (∀ pre post s1 s2,
       Image.run pre Image.initial = Some s1 →
       Image.run (pre ++ post) Image.initial = Some s2 →
       isLoaded (Image.load s1) = true →
       isLoaded (Image.load s2) = true).
Proof.
  split; [done|]. split; [done|].
  intros pre post s1 s2 Hpre Hall Hs1.
  rewrite run_app, Hpre in Hall. simpl in Hall.
  by eapply run_load.
Qed.

(** C3, at a concrete trace: the high resolution image loads, the wrapper
    then leaves the viewport and the image fires [onLoad] once more. *)
Lemma markLoaded_idempotent_loaded_monotonic_witness :
  let pre := [ Image.HighResLoaded ] in
  let post := [ Image.Io (useIntersectionObserver.Deliver [App.leaving]);
                Image.HighResLoaded ] in
  ∃ s1 s2,
    Image.run pre Image.initial = Some s1
    ∧ Image.run (pre ++ post) Image.initial = Some s2
    ∧ isLoaded (Image.load s1) = true
    ∧ isLoaded (Image.load s2) = true.
Proof.
  eexists _, _. split; [reflexivity|]. split; [reflexivity|].
  split; [reflexivity|].
  eapply (proj2 (proj2 markLoaded_idempotent_loaded_monotonic)
            [ Image.HighResLoaded ]
            [ Image.Io (useIntersectionObserver.Deliver [App.leaving]);
              Image.HighResLoaded ]);
    reflexivity.
Defined.

(** C4. [transitionStyles] (deriveStyle) depends on [isLoaded] only.
    Not loaded: the low resolution layer has opacity 1 and the blur
    filter, the high resolution layer opacity 0.  Loaded: the low
    resolution layer has opacity 0, the high resolution layer opacity 1.
    In both cases the transition of the low resolution layer is
    [opacity 500ms ease-out 50ms] and that of the high resolution layer
    [opacity 500ms ease-in 50ms], as literals. *)
Theorem transitionStyles_by_isLoaded :
  (∀ s, transitionStyles s = transitionStyles {| isLoaded := isLoaded s |})
  ∧ (let t := transitionStyles {| isLoaded := false |} in
     Js.get "opacity" (lowRes t) = Some (Js.Num 1)
     ∧ Js.get "filter" (lowRes t) = Some (Js.Str "blur(2px)")
     ∧ Js.get "opacity" (highRes t) = Some (Js.Num 0))
  ∧ (let t := transitionStyles {| isLoaded := true |} in
     Js.get "opacity" (lowRes t) = Some (Js.Num 0)
     ∧ Js.get "opacity" (highRes t) = Some (Js.Num 1))
  ∧ (∀ s,
       Js.get "transition" (lowRes (transitionStyles s))
       = Some (Js.Str "opacity 500ms ease-out 50ms")
       ∧ Js.shorthand "transition" (lowRes (transitionStyles s))
         = ["opacity"; "500ms"; "ease-out"; "50ms"]
       ∧ Js.get "transition" (highRes (transitionStyles s))
         = Some (Js.Str "opacity 500ms ease-in 50ms")
       ∧ Js.shorthand "transition" (highRes (transitionStyles s))
         = ["opacity"; "500ms"; "ease-in"; "50ms"]).
Proof.
  split; [by intros []|].
  split; [by repeat split|].
  split; [by repeat split|].
  intros s. by repeat split.
Qed.

(** C9. The low resolution style carries [filter: blur(2px)] whatever
    [isLoaded] is: only its opacity depends on the flag.  Once loaded the
    layer is transparent and still blurred, also in the style the
    component puts on the low resolution [<img>]; the high resolution
    style has no filter. *)
Theorem lowRes_blur_unconditional :
  (∀ s, Js.get "filter" (lowRes (transitionStyles s)) = Some (Js.Str "blur(2px)"))
  ∧ (∀ s, Js.get "filter" (highRes (transitionStyles s)) = None)
  ∧ (∀ s, Js.get "opacity" (lowRes (transitionStyles (handleImageOnLoad s)))
          = Some (Js.Num 0)
          ∧ Js.get "filter" (lowRes (transitionStyles (handleImageOnLoad s)))
            = Some (Js.Str "blur(2px)"))
  ∧ (∀ p s, Js.get "filter" (Image.lowResStyle p s) = Some (Js.Str "blur(2px)")).
Proof.
  by repeat split.
Qed.

End LoadTransition.

(** ** [useIntersectionObserver]: one observation at a time *)

Section VisibilityBinding.

Import Dom useIntersectionObserver.

Lemma exec_Some {A : Type} (m : M A) s a s' :
  m s = Some (a, s') → exec m s = Some s'.
Proof. unfold exec. by intros ->. Qed.

Lemma exec_run_total trace :
  ∃ s, exec (run trace) initial = Some s ∧ wf s.
Proof.
  destruct (run_wf trace initial initial_wf) as (s & Hrun & Hwf).
  exists s. split; [by eapply exec_Some|done].
Qed.

(** C8. [updateEntry] (onIntersectionUpdate) on a non-empty batch never
    throws and stores exactly the first snapshot of the batch in [entry]
    (lastEntry); the later snapshots of the batch leave no trace, and
    nothing else of the instance changes. *)
Theorem updateEntry_keeps_first (first : IntersectionObserverEntry)
    (later : list IntersectionObserverEntry) (s : Instance) :
  exec (updateEntry (first :: later)) s
  = Some {| observer := observer s; entry := Some first;
            destroy := destroy s; heap := heap s |}
  ∧ exec (updateEntry (first :: later)) s = exec (updateEntry [first]) s.
Proof. done. Qed.

(** C10. [updateEntry] on an empty batch does not throw: [entries[0]] is
    undefined, so [entry] becomes absent whatever it held before, and
    [isVisible] is false afterwards. *)
Theorem updateEntry_empty_batch (s : Instance) :
  ∃ s', exec (updateEntry []) s = Some s'
        ∧ s' = {| observer := observer s; entry := None;
                  destroy := destroy s; heap := heap s |}
        ∧ entry s' = None
        ∧ isVisible s' = false.
Proof. by eexists. Qed.

(** C2. After any sequence of events of an instance (effect runs against
    any refs, repeated or not, deliveries, clean-ups) nothing throws and
    at most one observation is active.  A further [bind] of an element
    first brings the instance to a state without any active observation
    (React's clean-up of the previous run, then the hook's own
    [disconnect] of [observer.current]) and only then constructs the new
    observer: afterwards exactly one observation is active, the one of
    the freshly constructed observer on the new element.  A [bind]
    without an element leaves none active. *)
Theorem at_most_one_active_observation (trace : list Event) :
  ∃ s, exec (run trace) initial = Some s
    ∧ length (activeObservations s) ≤ 1
    ∧ (∀ node, ∃ released s',
         exec (run_destroy;; disconnect_previous) s = Some released
         ∧ activeObservations released = []
         ∧ exec (d ← observe_node node; write_destroy d) released = Some s'
         ∧ exec (bind (Some node)) s = Some s'
         ∧ heap s !! length (heap s) = None
         ∧ activeObservations s' = [(length (heap s), node)])
    ∧ (∃ s', exec (bind None) s = Some s' ∧ activeObservations s' = []).
Proof.
  destruct (exec_run_total trace) as (s & Hexec & Hwf).
  exists s. split; [done|]. split; [by apply wf_at_most_one|]. split.
  - intros node.
    destruct (run_destroy_wf s Hwf)
      as (s1 & Hrd & Hwf1 & Hd1 & _ & _ & _ & _).
    destruct (disconnect_previous_released s1 Hwf1 Hd1)
      as (s2 & Hdp & Hwf2 & Hd2 & Hidle & _ & Hlen).
    destruct (commit_wf (Some {| current := Some node |}) s Hwf)
      as (s' & Hcommit & _ & _ & Hact & _).
    exists s2, s'. repeat split.
    + unfold exec, mbind, M_bind. by rewrite Hrd, Hdp.
    + unfold activeObservations, observations.
      by apply observations_from_idle.
    + unfold commit, effect, mbind, M_bind in Hcommit. simpl in Hcommit.
      rewrite Hrd in Hcommit. unfold mbind, M_bind in Hcommit.
      rewrite Hdp in Hcommit.
      unfold exec, mbind, M_bind.
      destruct (observe_node node s2) as [[d s3]|]; [|done].
      by rewrite Hcommit.
    + by eapply exec_Some.
    + by apply lookup_ge_None.
    + done.
  - destruct (commit_wf (Some {| current := None |}) s Hwf)
      as (s' & Hcommit & _ & _ & Hact & _).
    exists s'. split; [by eapply exec_Some|done].
Qed.

Lemma step_entry e s s' :
  wf s → step e s = Some ((), s') →
  wf s' ∧ entry s' = match e with
                     | Deliver entries => entries !! 0%nat
                     | _ => entry s
                     end.
Proof.
  intros Hwf Hstep. destruct e as [elementRef|entries|]; simpl in Hstep.
  - destruct (commit_wf elementRef s Hwf) as (s1 & H1 & Hwf1 & He & _).
    rewrite H1 in Hstep. by injection Hstep as <-.
  - destruct (updateEntry_wf entries s Hwf) as (s1 & H1 & Hwf1 & He & _).
    rewrite H1 in Hstep. by injection Hstep as <-.
  - destruct (run_destroy_wf s Hwf) as (s1 & H1 & Hwf1 & _ & _ & _ & He & _).
    unfold dispose in Hstep. rewrite H1 in Hstep. by injection Hstep as <-.
Qed.

Lemma last_cons_from_option {A B : Type} (f : A → B) (b : B) (x : A) (l : list A) :
  from_option f b (last (x :: l)) = from_option f (f x) (last l).
Proof.
  revert b x. induction l as [|y l IH]; intros b x; [done|].
  change (last (x :: y :: l)) with (last (y :: l)).
  by rewrite !IH.
Qed.

(** [entry] is the first snapshot of the latest delivered batch. *)
Lemma run_entry trace s s' :
  wf s → run trace s = Some ((), s') →
  entry s' = from_option (λ batch, batch !! 0%nat) (entry s) (last (delivered trace)).
Proof.
  revert s. induction trace as [|e trace IH]; intros s Hwf; simpl.
  - by intros [= <-].
  - unfold mbind, M_bind.
    destruct (step e s) as [[[] s1]|] eqn:Hstep; [|done].
    intros Hrun. destruct (step_entry e s s1 Hwf Hstep) as [Hwf1 He].
    rewrite (IH s1 Hwf1 Hrun), He.
    destruct e as [elementRef|entries|]; try done.
    by rewrite last_cons_from_option.
Qed.

(** As long as no element was handed over, the effect protocol is idle. *)
Lemma run_no_target trace s s' :
  wf s → destroy s = None → no_target_seen trace = true →
  run trace s = Some ((), s') →
  wf s' ∧ destroy s' = None ∧ observer s' = observer s ∧ heap s' = heap s.
Proof.
  revert s. induction trace as [|e trace IH]; intros s Hwf Hd Hno; simpl.
  - by intros [= <-].
  - unfold mbind, M_bind.
    destruct (step e s) as [[[] s1]|] eqn:Hstep; [|done]. intros Hrun.
    assert (wf s1 ∧ destroy s1 = None ∧ observer s1 = observer s
            ∧ heap s1 = heap s ∧ no_target_seen trace = true)
      as (Hwf1 & Hd1 & Hob1 & Hh1 & Hno1).
    { destruct e as [elementRef|entries|]; simpl in Hstep, Hno.
      - destruct (elementRef ≫= current) as [node|] eqn:Hnode; [done|].
        destruct (commit_wf elementRef s Hwf) as (s2 & H2 & _ & _ & _ & _ & Hsame).
        rewrite Hnode in Hsame. rewrite H2 in Hstep. injection Hstep as <-.
        by rewrite (Hsame eq_refl Hd).
      - destruct (updateEntry_wf entries s Hwf) as (s2 & H2 & Hwf2 & _ & ? & ? & ?).
        rewrite H2 in Hstep. injection Hstep as <-. repeat split; congruence.
      - destruct (run_destroy_wf s Hwf) as (s2 & H2 & _ & _ & _ & _ & _ & Hsame).
        unfold dispose in Hstep. rewrite H2 in Hstep. injection Hstep as <-.
        by rewrite (Hsame Hd). }
    destruct (IH s1 Hwf1 Hd1 Hno1 Hrun) as (? & ? & ? & ?).
    repeat split; congruence.
Qed.

(** C5 (as the hook has it).  [dispose] is total and idempotent: after
    any sequence of events, also when nothing was ever observed, the
    clean-up does not throw, a second clean-up changes nothing, and no
    observation is active afterwards.  It does not touch [entry]:
    [isVisible] is after [dispose] what it was before, hence false when
    no batch was ever delivered. *)
Theorem dispose_total_idempotent (trace : list Event) :
  ∃ s s', exec (run trace) initial = Some s
    ∧ exec dispose s = Some s'
    ∧ exec dispose s' = Some s'
    ∧ exec (dispose;; dispose) s = Some s'
    ∧ activeObservations s' = []
    ∧ entry s' = entry s
    ∧ isVisible s' = isVisible s
    ∧ (delivered trace = [] → isVisible s' = false).
Proof.
  destruct (run_wf trace initial initial_wf) as (s & Hrun & Hwf).
  destruct (run_destroy_wf s Hwf)
    as (s' & Hrd & Hwf' & Hd' & Hact & _ & He & _).
  destruct (run_destroy_wf s' Hwf') as (s'' & Hrd' & _ & _ & _ & _ & _ & Hsame).
  rewrite (Hsame Hd') in Hrd'.
  exists s, s'. repeat split; try done.
  - by eapply exec_Some.
  - by eapply exec_Some.
  - by eapply exec_Some.
  - unfold dispose, exec, mbind, M_bind. by rewrite Hrd, Hrd'.
  - unfold isVisible. by rewrite He.
  - intros Hnone. unfold isVisible.
    rewrite He, (run_entry trace initial s initial_wf Hrun), Hnone. done.
Qed.

(** C5, at a concrete trace: the owner goes away without ever having
    observed anything. *)
Lemma dispose_total_idempotent_witness :
  delivered [Dispose] = []
  ∧ ∃ s s', exec (run [Dispose]) initial = Some s
      ∧ exec dispose s = Some s'
      ∧ exec dispose s' = Some s'
      ∧ isVisible s' = false.
Proof.
  split; [reflexivity|].
  destruct (dispose_total_idempotent [Dispose])
    as (s & s' & Hrun & Hd & Hdd & _ & _ & _ & _ & Hfalse).
  exists s, s'. repeat split; try assumption.
  apply Hfalse. reflexivity.
Defined.

(** C5, as stated, fails: [dispose] does not reset [entry].  On the demo
    page the wrapper is observed and scrolls into view; after the
    clean-up, run twice, [isVisible] still answers true although no
    observation is active any more. *)
Lemma isVisible_survives_dispose :
  let trace := [ Bind (Some App.imageRef); Deliver [App.entering];
                 Dispose; Dispose ] in
  isVisible <$> exec (run trace) initial = Some true
  ∧ activeObservations <$> exec (run trace) initial = Some [].
Proof. split; reflexivity. Qed.

(** C6. An effect run that finds no element ([elementRef] undefined, or
    its [current] empty) returns at once and throws nothing.  If no
    element was ever handed over before, the instance is exactly what it
    was.  In every case no observation is active afterwards (the one of
    the previous run was disconnected by its clean-up) and no element is
    watched through [observer.current]. *)
Theorem bind_absent_target (trace : list Event) (elementRef : option Ref) :
  elementRef ≫= current = None →
  ∃ s s', exec (run trace) initial = Some s
    ∧ exec (commit elementRef) s = Some s'
    ∧ (no_target_seen trace = true → s' = s)
    ∧ activeObservations s' = []
    ∧ currentTarget s' = None.
Proof.
  intros Hnode.
  destruct (run_wf trace initial initial_wf) as (s & Hrun & Hwf).
  destruct (commit_wf elementRef s Hwf)
    as (s' & Hcommit & _ & _ & Hact & Hcur & Hsame).
  rewrite Hnode in Hact, Hcur.
  exists s, s'. repeat split; try done.
  - by eapply exec_Some.
  - by eapply exec_Some.
  - intros Hno. apply Hsame; [done|].
    by destruct (run_no_target trace initial s initial_wf eq_refl Hno Hrun) as (_ & ? & _).
Qed.

(** C6, at concrete traces: the ref is emptied after the wrapper had
    been observed, and a ref that is empty from the start. *)
Lemma bind_absent_target_witness :
  Some {| current := None |} ≫= current = None
  ∧ (∃ s s',
       exec (run [ Bind (Some App.imageRef); Deliver [App.entering] ]) initial
       = Some s
       ∧ exec (commit (Some {| current := None |})) s = Some s'
       ∧ activeObservations s = [(0%nat, App.wrapper_div)]
       ∧ activeObservations s' = []
       ∧ currentTarget s' = None)
  ∧ (∃ s s',
       exec (run [ Bind (Some {| current := None |}) ]) initial = Some s
       ∧ exec (commit (Some {| current := None |})) s = Some s'
       ∧ s' = s).
Proof.
  split; [reflexivity|]. split.
  - destruct (bind_absent_target
                [ Bind (Some App.imageRef); Deliver [App.entering] ]
                (Some {| current := None |}) eq_refl)
      as (s & s' & Hrun & Hcommit & _ & Hact & Hcur).
    exists s, s'. repeat split; try assumption.
    vm_compute in Hrun. injection Hrun as <-. reflexivity.
  - destruct (bind_absent_target
                [ Bind (Some {| current := None |}) ]
                (Some {| current := None |}) eq_refl)
      as (s & s' & Hrun & Hcommit & Hsame & _).
    exists s, s'. repeat split; try assumption.
    apply Hsame. reflexivity.
Defined.

End VisibilityBinding.

(** ** [Image]: what is rendered, and when *)

Section ProgressiveImage.

Import Dom useImageOnLoad useIntersectionObserver.

Local Open Scope string_scope.

(** The observer hook of a mounted [Image] sees exactly the hook events
    of the trace. *)
Lemma run_io trace s s' :
  Image.run trace s = Some s' →
  run (Image.io_events trace) (Image.io s) = Some ((), Image.io s').
Proof.
  revert s. induction trace as [|e trace IH]; intros s; simpl.
  - by intros [= <-].
  - destruct e as [e|]; simpl.
    + unfold exec.
      destruct (step e (Image.io s)) as [[[] io1]|] eqn:Hstep; simpl; [|done].
      intros Hrun. apply IH in Hrun.
      unfold mbind, M_bind. by rewrite Hstep.
    + intros Hrun. by apply IH in Hrun.
Qed.

(** The high resolution [<img>] is a child of the wrapper exactly when
    the guard holds. *)
Lemma render_children p s :
  Image.children (Image.render p s)
  = {| Image.src := Image.lowResSrc p; Image.style := Image.lowResStyle p s;
       Image.onLoad := None |}
    :: (if Image.shouldRenderHighFidelity s
        then [ {| Image.src := Image.highResSrc p;
                  Image.style := Image.hightResStyle p s;
                  Image.onLoad := Some Image.HandleImageOnLoad |} ]
        else []).
Proof. done. Qed.

(** C7. A freshly mounted [Image], before any event: the guard of the
    high resolution [<img>] is false (only the low resolution [<img>] is
    rendered), [isLoaded] is false, the low resolution style has opacity
    1 and the blur filter, the high resolution style has opacity 0. *)
Theorem initial_state (p : Image.Props) :
  Image.shouldRenderHighFidelity Image.initial = false
  ∧ isLoaded (Image.load Image.initial) = false
  ∧ Js.get "opacity" (Image.lowResStyle p Image.initial) = Some (Js.Num 1)
  ∧ Js.get "filter" (Image.lowResStyle p Image.initial) = Some (Js.Str "blur(2px)")
  ∧ Js.get "opacity" (Image.hightResStyle p Image.initial) = Some (Js.Num 0)
  ∧ Image.children (Image.render p Image.initial)
    = [ {| Image.src := Image.lowResSrc p;
           Image.style := Image.lowResStyle p Image.initial;
           Image.onLoad := None |} ].
Proof. by repeat split. Qed.

(** C1, as stated, fails: the guard is not latched.  On the demo page the
    wrapper scrolls into view (the guard becomes true) and out again: the
    guard is false once more. *)
Lemma shouldRenderHighFidelity_not_latched :
  let pre := [ Image.Io (Bind (Some App.imageRef));
               Image.Io (Deliver [App.entering]) ] in
  let post := [ Image.Io (Deliver [App.leaving]) ] in
  Image.shouldRenderHighFidelity <$> Image.run pre Image.initial = Some true
  ∧ Image.shouldRenderHighFidelity <$> Image.run (pre ++ post) Image.initial
    = Some false.
Proof. split; reflexivity. Qed.

(** C1 (as the component has it).  The guard of the high resolution
    [<img>] is the [isIntersecting] flag of the first snapshot of the
    latest delivered batch, and false when there is none.  So it is false
    as long as no delivered snapshot had [isIntersecting = true]; it is
    true immediately after a batch whose first snapshot has
    [isIntersecting = true]; and it is false again immediately after a
    batch whose first snapshot has [isIntersecting = false]. *)
Theorem shouldRenderHighFidelity_latest_batch (trace : list Image.Event)
    (s : Image.State) :
  Image.run trace Image.initial = Some s →
  Image.shouldRenderHighFidelity s
  = from_option (λ batch, truthy (isIntersecting <$> batch !! 0%nat)) false
      (last (delivered (Image.io_events trace)))
  ∧ (Forall (Forall (λ e, isIntersecting e = false))
       (delivered (Image.io_events trace)) →
     Image.shouldRenderHighFidelity s = false)
  ∧ (∀ first later,
       ∃ s', Image.step (Image.Io (Deliver (first :: later))) s = Some s'
             ∧ Image.shouldRenderHighFidelity s' = isIntersecting first).
Proof.
  intros Hrun.
  assert (Hlatest : Image.shouldRenderHighFidelity s
    = from_option (λ batch, truthy (isIntersecting <$> batch !! 0%nat)) false
        (last (delivered (Image.io_events trace)))).
  { unfold Image.shouldRenderHighFidelity, isVisible.
    rewrite (run_entry _ _ _ initial_wf (run_io _ _ _ Hrun)).
    by destruct (last _). }
  split; [done|]. split.
  - intros Hall. rewrite Hlatest.
    destruct (last _) as [batch|] eqn:Hlast; [|done]. simpl.
    apply last_Some_elem_of in Hlast.
    rewrite Forall_forall in Hall. specialize (Hall _ Hlast).
    destruct batch as [|e batch]; [done|]. simpl.
    by inversion Hall.
  - intros first later. by eexists.
Qed.

(** C1, at the trace of the demo page: observed, scrolled into view,
    scrolled out again. *)
Lemma shouldRenderHighFidelity_latest_batch_witness :
  let trace := [ Image.Io (Bind (Some App.imageRef));
                 Image.Io (Deliver [App.entering]);
                 Image.Io (Deliver [App.leaving]) ] in
  ∃ s, Image.run trace Image.initial = Some s
       ∧ Image.shouldRenderHighFidelity s
         = from_option (λ batch, truthy (isIntersecting <$> batch !! 0%nat))
             false (last (delivered (Image.io_events trace)))
       ∧ Image.shouldRenderHighFidelity s = false.
Proof.
  eexists. split; [reflexivity|].
  split; [|reflexivity].
  eapply (proj1 (shouldRenderHighFidelity_latest_batch
                   [ Image.Io (Bind (Some App.imageRef));
                     Image.Io (Deliver [App.entering]);
                     Image.Io (Deliver [App.leaving]) ] _ _)).
  Unshelve. reflexivity.
Defined.

End ProgressiveImage.

(** ** Further properties of [useIntersectionObserver] *)

Section ObserverLifecycle.

Import Dom useIntersectionObserver.

Lemma bind_Some {A B : Type} (m : M A) (k : A → M B) s b s' :
  (m ≫= k) s = Some (b, s') →
  ∃ a s1, m s = Some (a, s1) ∧ k a s1 = Some (b, s').
Proof. unfold mbind, M_bind. destruct (m s) as [[a s1]|]; [eauto|done]. Qed.

Lemma disconnect_options h s s' :
  disconnect h s = Some ((), s') →
  obs_options <$> heap s' = obs_options <$> heap s.
Proof.
  unfold disconnect, deref, write_heap, mbind, M_bind.
  destruct (heap s !! h) as [o|] eqn:Hh; [|done]. simpl.
  intros [= <-]. simpl. rewrite list_fmap_insert. simpl.
  apply list_insert_id. by rewrite list_lookup_fmap, Hh.
Qed.

Lemma observe_options h node s s' :
  observe h node s = Some ((), s') →
  obs_options <$> heap s' = obs_options <$> heap s.
Proof.
  unfold observe, deref, write_heap, mbind, M_bind.
  destruct (heap s !! h) as [o|] eqn:Hh; [|done]. simpl.
  intros [= <-]. simpl. rewrite list_fmap_insert. simpl.
  apply list_insert_id. by rewrite list_lookup_fmap, Hh.
Qed.

Lemma run_destroy_options s s' :
  run_destroy s = Some ((), s') →
  obs_options <$> heap s' = obs_options <$> heap s.
Proof.
  unfold run_destroy. intros H.
  apply bind_Some in H as (d & s1 & [= <- <-] & H).
  destruct (destroy s) as [[h]|]; [|by injection H as <-].
  apply bind_Some in H as ([] & s2 & Hdis & [= <-]). simpl.
  by apply disconnect_options in Hdis.
Qed.

Lemma disconnect_previous_options s s' :
  disconnect_previous s = Some ((), s') →
  obs_options <$> heap s' = obs_options <$> heap s.
Proof.
  unfold disconnect_previous. intros H.
  apply bind_Some in H as (cur & s1 & [= <- <-] & H).
  destruct (observer s) as [h|]; [|by injection H as <-].
  by apply disconnect_options in H.
Qed.

Lemma observe_node_options node d s s' :
  observe_node node s = Some (d, s') →
  obs_options <$> heap s' = (obs_options <$> heap s) ++ [options].
Proof.
  unfold observe_node. intros H.
  apply bind_Some in H as (h & s1 & [= <- <-] & H).
  apply bind_Some in H as ([] & s2 & [= <-] & H).
  apply bind_Some in H as (cur & s3 & [= <- <-] & H). simpl in H.
  apply bind_Some in H as ([] & s4 & Hobs & [= _ <-]).
  apply observe_options in Hobs. rewrite Hobs. simpl.
  by rewrite fmap_app.
Qed.

Lemma commit_options elementRef s s' :
  commit elementRef s = Some ((), s') →
  obs_options <$> heap s'
  = (obs_options <$> heap s)
    ++ replicate (length (option_list (elementRef ≫= current))) options.
Proof.
  unfold commit. intros H.
  apply bind_Some in H as ([] & s1 & Hrd & H).
  apply bind_Some in H as (d & s2 & Heff & [= <-]). simpl.
  apply run_destroy_options in Hrd. rewrite <- Hrd.
  unfold effect in Heff.
  destruct (elementRef ≫= current) as [node|]; simpl.
  - apply bind_Some in Heff as ([] & s3 & Hdp & Hon).
    apply disconnect_previous_options in Hdp.
    apply observe_node_options in Hon. by rewrite Hon, Hdp.
  - injection Heff as <- <-. by rewrite app_nil_r.
Qed.

Lemma step_options e s s' :
  step e s = Some ((), s') →
  obs_options <$> heap s'
  = (obs_options <$> heap s) ++ replicate (length (bound_nodes [e])) options.
Proof.
  destruct e as [elementRef|entries|]; simpl.
  - rewrite app_nil_r. apply commit_options.
  - intros [= <-]. simpl. by rewrite app_nil_r.
  - intros H. apply run_destroy_options in H. by rewrite app_nil_r.
Qed.

Lemma run_options trace s s' :
  run trace s = Some ((), s') →
  obs_options <$> heap s'
  = (obs_options <$> heap s) ++ replicate (length (bound_nodes trace)) options.
Proof.
  revert s. induction trace as [|e trace IH]; intros s; simpl.
  - intros [= <-]. by rewrite app_nil_r.
  - intros H. apply bind_Some in H as ([] & s1 & Hstep & Hrun).
    rewrite (IH _ Hrun), (step_options _ _ _ Hstep), <- app_assoc.
    f_equal. rewrite <- replicate_add. f_equal.
    destruct e as [elementRef|entries|]; simpl; try done.
    rewrite app_nil_r. by rewrite length_app.
Qed.

(** In a well-shaped instance [observer.current] names the newest
    observer. *)
Lemma wf_observer_newest s :
  wf s →
  observer s = match heap s with
               | [] => None
               | _ :: _ => Some (length (heap s) - 1)
               end.
Proof.
  intros [e|old o e Hold Ho|old o e node Hold Ho]; simpl; [done| |].
  - destruct (old ++ [o]) eqn:Heq; [by destruct old|].
    rewrite <- Heq, length_app. simpl. f_equal. lia.
  - destruct (old ++ [o]) eqn:Heq; [by destruct old|].
    rewrite <- Heq, length_app. simpl. f_equal. lia.
Qed.

(** X3. Observers are constructed by effect runs that find an element,
    one per such run and by nothing else: after any trace the instance
    has constructed as many observers as effect runs found an element
    (an effect run without element constructs none, a run on an element
    already watched constructs a further one); each was constructed with
    the fixed [options]; and [observer.current] names the newest of
    them, being undefined only while none exists. *)
Theorem observers_constructed (trace : list Event) :
  ∃ s, exec (run trace) initial = Some s
    ∧ length (heap s) = length (bound_nodes trace)
    ∧ obs_options <$> heap s = replicate (length (bound_nodes trace)) options
    ∧ observer s = match bound_nodes trace with
                   | [] => None
                   | _ :: _ => Some (length (bound_nodes trace) - 1)
                   end.
Proof.
  destruct (run_wf trace initial initial_wf) as (s & Hrun & Hwf).
  pose proof (run_options _ _ _ Hrun) as Hopts. simpl in Hopts.
  assert (Hlen : length (heap s) = length (bound_nodes trace)).
  { rewrite <- (length_fmap obs_options), Hopts. apply length_replicate. }
  exists s. split; [by eapply exec_Some|]. repeat split; try done.
  rewrite (wf_observer_newest s Hwf), <- Hlen.
  destruct (heap s), (bound_nodes trace); done.
Qed.

Lemma wf_active_currentTarget s :
  wf s →
  activeObservations s = match currentTarget s with
                         | Some node => [(length (heap s) - 1, node)]
                         | None => []
                         end.
Proof.
  intros [e|old o e Hold Ho|old o e node Hold Ho];
    unfold activeObservations, currentTarget; simpl; [done| |].
  - rewrite observations_last, list_lookup_middle by done. simpl.
    by rewrite Ho.
  - rewrite observations_last, list_lookup_middle by done. simpl.
    rewrite Ho, length_app. simpl. do 2 f_equal. lia.
Qed.

Lemma step_currentTarget e s s' :
  wf s → step e s = Some ((), s') →
  wf s' ∧ currentTarget s' = watched (currentTarget s) [e].
Proof.
  intros Hwf Hstep. destruct e as [elementRef|entries|]; simpl in *.
  - destruct (commit_wf elementRef s Hwf) as (s1 & H1 & Hwf1 & _ & _ & Hcur & _).
    rewrite H1 in Hstep. by injection Hstep as <-.
  - destruct (updateEntry_wf entries s Hwf) as (s1 & H1 & Hwf1 & _ & Hob & _ & Hh).
    rewrite H1 in Hstep. injection Hstep as <-. split; [done|].
    unfold currentTarget. by rewrite Hob, Hh.
  - destruct (run_destroy_wf s Hwf) as (s1 & H1 & Hwf1 & _ & _ & Hcur & _).
    unfold dispose in Hstep. rewrite H1 in Hstep. by injection Hstep as <-.
Qed.

Lemma run_watched trace s s' :
  wf s → run trace s = Some ((), s') →
  wf s' ∧ currentTarget s' = watched (currentTarget s) trace.
Proof.
  revert s. induction trace as [|e trace IH]; intros s Hwf; simpl.
  - by intros [= <-].
  - intros H. apply bind_Some in H as ([] & s1 & Hstep & Hrun).
    destruct (step_currentTarget e s s1 Hwf Hstep) as [Hwf1 Hcur1].
    destruct (IH s1 Hwf1 Hrun) as [Hwf' Hcur']. split; [done|].
    rewrite Hcur', Hcur1. by destruct e.
Qed.

(** X2. What the hook watches is decided by the latest effect run or
    clean-up alone: after any trace the element watched through
    [observer.current] is the one the latest effect run found, or none
    when that run found none or a clean-up came after it; deliveries do
    not matter.  The active observations are exactly that element, held
    by the newest observer. *)
Theorem watched_element (trace : list Event) :
  ∃ s, exec (run trace) initial = Some s
    ∧ currentTarget s = watched None trace
    ∧ activeObservations s = match watched None trace with
                             | Some node => [(length (bound_nodes trace) - 1, node)]
                             | None => []
                             end.
Proof.
  destruct (run_wf trace initial initial_wf) as (s & Hrun & Hwf).
  destruct (run_watched trace initial s initial_wf Hrun) as [_ Hcur].
  pose proof (run_options _ _ _ Hrun) as Hopts. simpl in Hopts.
  assert (Hlen : length (heap s) = length (bound_nodes trace)).
  { rewrite <- (length_fmap obs_options), Hopts. apply length_replicate. }
  exists s. split; [by eapply exec_Some|]. split; [done|].
  by rewrite (wf_active_currentTarget s Hwf), Hcur, Hlen.
Qed.

(** X1. Only deliveries write [entry]: after any trace the [entry] the
    hook returns is the first snapshot of the latest delivered batch
    (undefined when no batch was delivered or that batch was empty).  An
    effect run never resets it: after re-running the effect against any
    ref, [entry] and [isVisible] are what they were, so they can still
    describe the element watched before. *)
Theorem entry_written_by_deliveries_only (trace : list Event) :
  ∃ s, exec (run trace) initial = Some s
    ∧ entry s = last (delivered trace) ≫= (λ batch, batch !! 0%nat)
    ∧ ∀ elementRef,
        ∃ s', exec (commit elementRef) s = Some s'
              ∧ entry s' = entry s
              ∧ isVisible s' = isVisible s.
Proof.
  destruct (run_wf trace initial initial_wf) as (s & Hrun & Hwf).
  exists s. split; [by eapply exec_Some|]. split.
  - rewrite (run_entry trace initial s initial_wf Hrun). simpl.
    by destruct (last (delivered trace)).
  - intros elementRef.
    destruct (commit_wf elementRef s Hwf) as (s' & Hcommit & _ & He & _).
    exists s'. split; [by eapply exec_Some|]. split; [done|].
    unfold isVisible. by rewrite He.
Qed.

(** X4. An observation is active exactly while React holds a clean-up
    function for it: after any trace, either no clean-up is pending and
    nothing is observed, or the pending clean-up disconnects the observer
    in [observer.current], which holds the only active observation. *)
Theorem active_iff_cleanup_pending (trace : list Event) :
  ∃ s, exec (run trace) initial = Some s
    ∧ match destroy s with
      | None => activeObservations s = []
      | Some (DisconnectObserver h) =>
          observer s = Some h
          ∧ ∃ node, activeObservations s = [(h, node)]
                    ∧ currentTarget s = Some node
      end.
Proof.
  destruct (run_wf trace initial initial_wf) as (s & Hrun & Hwf).
  exists s. split; [by eapply exec_Some|].
  destruct Hwf as [e|old o e Hold Ho|old o e node Hold Ho];
    unfold activeObservations, currentTarget; simpl.
  - done.
  - rewrite observations_last by done. by rewrite Ho.
  - split; [done|]. exists node.
    rewrite observations_last, list_lookup_middle by done. simpl.
    by rewrite Ho.
Qed.

End ObserverLifecycle.

(** ** Further properties of [Image] *)

Section ImageLifecycle.

Import Dom useImageOnLoad useIntersectionObserver.

Local Open Scope string_scope.

Lemma step_Io e s s' :
  Image.step (Image.Io e) s = Some s' →
  step e (Image.io s) = Some ((), Image.io s') ∧ Image.load s' = Image.load s.
Proof.
  simpl. unfold exec.
  destruct (step e (Image.io s)) as [[[] io1]|]; simpl; [|done].
  by intros [= <-].
Qed.





Lemma feasible_loaded trace s s' :
  wf (Image.io s) →
  Image.feasible trace s = true →
  Image.run trace s = Some s' →
  isLoaded (Image.load s') = true →
  isLoaded (Image.load s) = true
  ∨ Image.shouldRenderHighFidelity s = true
  ∨ Exists (λ batch, truthy (isIntersecting <$> batch !! 0%nat) = true)
      (delivered (Image.io_events trace)).
Proof.
  revert s. induction trace as [|e trace IH]; intros s Hwf; simpl.
  - intros _ [= <-] Hl. by left.
  - destruct (Image.step e s) as [s1|] eqn:Hstep; simpl;
      [|by rewrite andb_false_r].
    intros [Hen Hfeas]%andb_true_iff Hrun Hl.
    destruct e as [e|].
    + apply step_Io in Hstep as [Hstep Hload].
      destruct (step_entry e _ _ Hwf Hstep) as [Hwf1 He].
      destruct (IH s1 Hwf1 Hfeas Hrun Hl) as [H|[H|H]].
      * left. by rewrite <- Hload.
      * unfold Image.shouldRenderHighFidelity, isVisible in *.
        rewrite He in H.
        destruct e as [elementRef|entries|]; simpl; [by right; left| |by right; left].
        right; right. by apply Exists_cons_hd.
      * right; right.
        destruct e as [elementRef|entries|]; simpl; [done| |done].
        by apply Exists_cons_tl.
    + right; left. done.
Qed.

(** X6. The high resolution image is never recorded as loaded before
    the wrapper was reported visible: along every trace in which [onLoad]
    fires only while the high resolution [<img>] is rendered, [isLoaded]
    implies that some delivered batch had a first snapshot with
    [isIntersecting = true]. *)
Theorem loaded_only_after_intersecting (trace : list Image.Event)
    (s : Image.State) :
  Image.feasible trace Image.initial = true →
  Image.run trace Image.initial = Some s →
  isLoaded (Image.load s) = true →
  Exists (λ batch, truthy (isIntersecting <$> batch !! 0%nat) = true)
    (delivered (Image.io_events trace)).
Proof.
  intros Hfeas Hrun Hl.
  by destruct (feasible_loaded trace Image.initial s initial_wf Hfeas Hrun Hl)
    as [H|[H|H]].
Qed.

(** X6, on the demo page: observed, scrolled into view, loaded. *)
Lemma loaded_only_after_intersecting_witness :
  let trace := [ Image.Io (Bind (Some App.imageRef));
                 Image.Io (Deliver [App.entering]);
                 Image.HighResLoaded ] in
  Image.feasible trace Image.initial = true
  ∧ ∃ s, Image.run trace Image.initial = Some s
      ∧ isLoaded (Image.load s) = true
      ∧ Exists (λ batch, truthy (isIntersecting <$> batch !! 0%nat) = true)
          (delivered (Image.io_events trace)).
Proof.
  split; [reflexivity|].
  eexists. split; [reflexivity|]. split; [reflexivity|].
  eapply (loaded_only_after_intersecting
            [ Image.Io (Bind (Some App.imageRef));
              Image.Io (Deliver [App.entering]);
              Image.HighResLoaded ]); reflexivity.
Defined.

(** X7. Once the high resolution image has loaded, a wrapper that is
    reported not intersecting shows nothing: the high resolution [<img>]
    is not rendered, and the only child, the low resolution [<img>], has
    opacity 0. *)
Theorem loaded_and_hidden_renders_transparent (p : Image.Props)
    (s : Image.State) :
  isLoaded (Image.load s) = true →
  Image.shouldRenderHighFidelity s = false →
  ∃ img, Image.children (Image.render p s) = [img]
         ∧ Image.src img = Image.lowResSrc p
         ∧ Image.onLoad img = None
         ∧ Js.get "opacity" (Image.style img) = Some (Js.Num 0).
Proof.
  intros Hl Hv. rewrite render_children, Hv.
  eexists. split; [reflexivity|]. repeat split.
  simpl. unfold Image.lowResStyle. destruct (Image.load s) as [l].
  simpl in Hl. by subst l.
Qed.

(** X7, on the demo page: the state is reached by scrolling the loaded
    image out of view again. *)
Lemma loaded_and_hidden_renders_transparent_witness :
  let trace := [ Image.Io (Bind (Some App.imageRef));
                 Image.Io (Deliver [App.entering]);
                 Image.HighResLoaded;
                 Image.Io (Deliver [App.leaving]) ] in
  Image.feasible trace Image.initial = true
  ∧ ∃ s img, Image.run trace Image.initial = Some s
      ∧ Image.children (Image.render App.props s) = [img]
      ∧ Image.src img = Image.lowResSrc App.props
      ∧ Image.onLoad img = None
      ∧ Js.get "opacity" (Image.style img) = Some (Js.Num 0).
Proof.
  intros trace. split; [reflexivity|].
  assert (∃ s, Image.run trace Image.initial = Some s
               ∧ isLoaded (Image.load s) = true
               ∧ Image.shouldRenderHighFidelity s = false)
    as (s & Hrun & Hl & Hv).
  { eexists. split; [reflexivity|]. split; reflexivity. }
  destruct (loaded_and_hidden_renders_transparent App.props s Hl Hv)
    as (img & Hc & Hsrc & Hon & Hop).
  exists s, img. repeat split; assumption.
Defined.

(** X8. The component with the observer hook renders what its first
    version renders, cut down by the guard: the wrapper is styled alike;
    while [isVisible] holds the children are those of the first version
    (same sources, styles and [onLoad] handler), otherwise only the first
    of them, the low resolution [<img>]. *)
Theorem render_refines_first_version (p : Image.Props) (s : Image.State) :
  Image.div_style (Image.render p s)
  = Image.div_style (ImageBasic.render p (Image.load s))
  ∧ Image.children (Image.render p s)
    = (if isVisible (Image.io s)
       then Image.children (ImageBasic.render p (Image.load s))
       else take 1 (Image.children (ImageBasic.render p (Image.load s))))
  ∧ length (Image.children (ImageBasic.render p (Image.load s))) = 2%nat.
Proof.
  split; [done|]. split; [|done].
  unfold Image.render. simpl. by destruct (isVisible (Image.io s)).
Qed.

Lemma get_app k (a b : Js.Obj) :
  Js.get k (a ++ b)%list
  = match Js.get k a with Some v => Some v | None => Js.get k b end.
Proof.
  induction a as [|[k' v'] a IH]; simpl; [done|].
  by destruct (String.eqb k k').
Qed.

(** X9. The transition styles never override the layout of an [<img>]:
    for all props and states the style object of each [<img>] is the
    layout object [styles.image] followed by the transition properties,
    so every property of [styles.image] is found in it with its value
    and the transition properties are looked up only after them. *)
Theorem img_styles_keep_layout (p : Image.Props) (s : Image.State) :
  Image.lowResStyle p s
  = (Image.image (Image.styles p) ++ lowRes (transitionStyles (Image.load s)))%list
  ∧ Image.hightResStyle p s
    = (Image.image (Image.styles p) ++ highRes (transitionStyles (Image.load s)))%list
  ∧ (∀ k, Js.get k (Image.lowResStyle p s)
          = match Js.get k (Image.image (Image.styles p)) with
            | Some v => Some v
            | None => Js.get k (lowRes (transitionStyles (Image.load s)))
            end)
  ∧ (∀ k, Js.get k (Image.hightResStyle p s)
          = match Js.get k (Image.image (Image.styles p)) with
            | Some v => Some v
            | None => Js.get k (highRes (transitionStyles (Image.load s)))
            end).
Proof.
  assert (Hlow : Image.lowResStyle p s
    = (Image.image (Image.styles p) ++ lowRes (transitionStyles (Image.load s)))%list)
    by done.
  assert (Hhigh : Image.hightResStyle p s
    = (Image.image (Image.styles p) ++ highRes (transitionStyles (Image.load s)))%list)
    by done.
  split; [done|]. split; [done|]. split; intros k.
  - rewrite Hlow. apply get_app.
  - rewrite Hhigh. apply get_app.
Qed.

End ImageLifecycle.
